(** * Verification of the [trading.exchgs] order-matching engine

    Shallow embedding of [src/trading/exchgs.py] (classes [market] and
    [exchange]) together with the helpers of [src/misc.py] it uses
    ([non_value], [nan_first], [nan_last]).

    Modelling choices:
    - prices are integers counted in cents ([4.00] is [400]); a market
      order's price ([None] or NaN in the source) is [None];
    - timestamps and amounts are integers;
    - agents are strings compared by equality (the source compares them
      with [is]);
    - Python's [list.sort] is a stable sort: [sort_by] is a stable
      insertion sort on the same key, which yields the same list;
    - the [execute] generator is consumed completely ([list (...)]): it is
      modelled as the loop [run] over the single iteration [step]; the
      number of iterations it is given is one more than the number of
      resting orders, which is enough (see [execute_terminates]). *)

From Stdlib Require Import ZArith Bool Lia Sorting.Sorted.
From stdpp Require Import base list gmap strings.

Open Scope Z_scope.

(** ** [misc] helpers *)

Module Misc.

(** [misc.non_value]: [None] (or NaN) marks a market-price order. *)
Definition non_value (p : option Z) : bool :=
  match p with None => true | Some _ => false end.

(** Extended prices: [-inf], a finite price, [inf]. *)
Inductive ext := NegInf | Fin (z : Z) | PosInf.

Definition ext_ltb (a b : ext) : bool :=
  match a, b with
  | NegInf, NegInf => false
  | NegInf, _ => true
  | Fin x, Fin y => x <? y
  | Fin _, PosInf => true
  | _, _ => false
  end.

Definition ext_eqb (a b : ext) : bool :=
  match a, b with
  | NegInf, NegInf => true
  | Fin x, Fin y => x =? y
  | PosInf, PosInf => true
  | _, _ => false
  end.

(** [misc.nan_first]: a non-value sorts as [-inf]. *)
Definition nan_first (p : option Z) : ext :=
  match p with None => NegInf | Some x => Fin x end.

(** [misc.nan_last]: a non-value sorts as [inf]. *)
Definition nan_last (p : option Z) : ext :=
  match p with None => PosInf | Some x => Fin x end.

End Misc.

Import Misc.

(** ** Orders and trades: the [trade] namedtuple *)

Record trade := mk_trade {
  security : string;
  price : option Z;
  time : Z;
  amount : Z;
  agent : string
}.

Definition set_amount (o : trade) (a : Z) : trade :=
  mk_trade (security o) (price o) (time o) a (agent o).

(** ** Book keys and Python's stable sort *)

(** Python compares the key tuples lexicographically. *)
Definition key_leb (k1 k2 : ext * Z) : bool :=
  ext_ltb k1.1 k2.1 || (ext_eqb k1.1 k2.1 && (k1.2 <=? k2.2)).

Definition sell_book_key (o : trade) : ext * Z := (nan_first (price o), - time o).

Definition buy_book_key (o : trade) : ext * Z := (nan_last (price o), time o).

(** Insert [x] after every element whose key is not greater than its own
    (so that elements with equal keys keep their original order). *)
Fixpoint insort (key : trade -> ext * Z) (x : trade) (l : list trade) : list trade :=
  match l with
  | [] => [x]
  | y :: l' => if key_leb (key y) (key x) then y :: insort key x l' else x :: l
  end.

(** [l.sort(key=key)]. *)
Definition sort_by (key : trade -> ext * Z) (l : list trade) : list trade :=
  fold_left (fun acc x => insort key x acc) l [].

(** ** The [market] class *)

Record market := mk_market {
  name : string;
  mnow : Z;
  buying : list trade;
  selling : list trade;
  lastprice : Z;
  transaction : Z
}.

(** [market(name, now)]. *)
Definition new_market (nm : string) (now : Z) : market := mk_market nm now [] [] 0 0.

Definition set_books (m : market) (b s : list trade) : market :=
  mk_market (name m) (mnow m) b s (lastprice m) (transaction m).

Definition not_agent (a : string) (o : trade) : bool := negb (String.eqb (agent o) a).

(** [market.close]. *)
Definition close (a : string) (m : market) : market :=
  set_books m (List.filter (not_agent a) (buying m)) (List.filter (not_agent a) (selling m)).

(** [market.enter]. *)
Definition enter (order : trade) (update : bool) (m : market) : market :=
  let m1 := if update then close (agent order) m else m in
  if 0 <=? amount order
  then set_books m1 (sort_by buy_book_key (buying m1 ++ [order])) (selling m1)
  else set_books m1 (buying m1) (sort_by sell_book_key (selling m1 ++ [order])).

(** [market.buy]. *)
Definition buy (a : string) (amt : Z) (pr : option Z) (now : Z) (update : bool)
    (m : market) : market :=
  enter (mk_trade (name m) pr now amt a) update m.

(** [market.sell]. *)
Definition sell (a : string) (amt : Z) (pr : option Z) (now : Z) (update : bool)
    (m : market) : market :=
  enter (mk_trade (name m) pr now (- amt) a) update m.

(** [self.buying[-1]]. *)
Definition last_opt (l : list trade) : option trade :=
  match rev l with [] => None | x :: _ => Some x end.

(** [for order in search: if not non_value(order.price): ...]. *)
Fixpoint first_limit (l : list trade) : option Z :=
  match l with
  | [] => None
  | o :: l' => if non_value (price o) then first_limit l' else price o
  end.

(** The while condition's price test: a market order on either side is
    crossed, otherwise [selling[0].price <= buying[-1].price]. *)
Definition crossed (s b : trade) : bool :=
  match price s, price b with
  | Some sp, Some bp => sp <=? bp
  | _, _ => true
  end.

(** Outcome of one pass through the body of the [while] loop. *)
Inductive step_result :=
  | Stop                          (* the while condition is false *)
  | NoPrice                       (* the [break]: no price can be found *)
  | Match (tb ts : trade) (m' : market).  (* two yields, books updated *)

(** The price chosen by the loop body, with the [search] chain of the
    branch taken ([search] is only read when it was assigned). *)
Definition trade_price (buying_ selling_ : list trade) (b s : trade) : option Z :=
  let '(pr, search) :=
    if time b <? time s then
      (* Buyer placed trade before seller; buyer gets better price *)
      if non_value (price s) then (price b, rev buying_ ++ selling_)
      else (price s, [])
    else
      (* Seller placed trade at/after buyer; seller gets better price *)
      if non_value (price b) then (price s, selling_ ++ rev buying_)
      else (price b, []) in
  if non_value pr then first_limit search else pr.

(** One iteration of [market.execute]. *)
Definition step (m : market) (now : Z) : step_result :=
  match last_opt (buying m), selling m with
  | Some b, s :: srest =>
      if crossed s b then
        let amt := Z.min (amount b) (- amount s) in
        match trade_price (buying m) (selling m) b s with
        | None => NoPrice
        | Some p =>
            let buying' :=
              if amt =? amount b then removelast (buying m)
              else removelast (buying m) ++ [set_amount b (amount b - amt)] in
            let selling' :=
              if amt =? - amount s then srest
              else set_amount s (amount s + amt) :: srest in
            Match (mk_trade (name m) (Some p) now amt (agent b))
                  (mk_trade (name m) (Some p) now (- amt) (agent s))
                  (mk_market (name m) (mnow m) buying' selling' p (transaction m + 1))
        end
      else Stop
  | _, _ => Stop
  end.

Definition size (m : market) : nat := length (buying m) + length (selling m).

(** The [while] loop, run for at most [fuel] iterations. *)
Fixpoint run (fuel : nat) (m : market) (now : Z) : list trade * market :=
  match fuel with
  | O => ([], m)
  | S f =>
      match step m now with
      | Match tb ts m' => let '(tr, m'') := run f m' now in (tb :: ts :: tr, m'')
      | _ => ([], m)
      end
  end.

(** [list(m.execute(now))]: the trades yielded and the market afterwards. *)
Definition execute (m : market) (now : Z) : list trade * market :=
  run (S (size m)) m now.

(** ** The [exchange] class *)

Record exchange := mk_exchange {
  ex_name : string;
  markets : gmap string market
}.

(** [if security not in self.markets: self.markets[security] = market(security)];
    [clock] is the value of [misc.timer()] the new market records. *)
Definition ensure_market (clock : Z) (sec : string) (ex : exchange) : exchange :=
  match markets ex !! sec with
  | Some _ => ex
  | None => mk_exchange (ex_name ex) (<[sec := new_market sec clock]> (markets ex))
  end.

(** Apply an operation to [self.markets[security]] in place. *)
Definition on_market (sec : string) (f : market -> market) (ex : exchange) : exchange :=
  match markets ex !! sec with
  | Some mk => mk_exchange (ex_name ex) (<[sec := f mk]> (markets ex))
  | None => ex
  end.

(** [exchange.buy]. *)
Definition ex_buy (clock : Z) (sec a : string) (amt : Z) (pr : option Z) (now : Z)
    (update : bool) (ex : exchange) : exchange :=
  on_market sec (buy a amt pr now update) (ensure_market clock sec ex).

(** [exchange.sell]: as in the source, it calls the market's [buy]. *)
Definition ex_sell (clock : Z) (sec a : string) (amt : Z) (pr : option Z) (now : Z)
    (update : bool) (ex : exchange) : exchange :=
  on_market sec (buy a amt pr now update) (ensure_market clock sec ex).

(** [exchange.enter]. *)
Definition ex_enter (clock : Z) (order : trade) (update : bool) (ex : exchange) : exchange :=
  on_market (security order) (enter order update) (ensure_market clock (security order) ex).

(** ** Reachable market states *)

(** States reachable from a new market through the public operations, every
    entered order satisfying [ok]; [reach_step] covers a partially consumed
    [execute] generator. *)
Inductive reachable (ok : trade -> Prop) : market -> Prop :=
  | reach_new nm t : reachable ok (new_market nm t)
  | reach_enter o u m : ok o -> reachable ok m -> reachable ok (enter o u m)
  | reach_buy a amt pr now u m :
      ok (mk_trade (name m) pr now amt a) -> reachable ok m -> reachable ok (buy a amt pr now u m)
  | reach_sell a amt pr now u m :
      ok (mk_trade (name m) pr now (- amt) a) -> reachable ok m -> reachable ok (sell a amt pr now u m)
  | reach_close a m : reachable ok m -> reachable ok (close a m)
  | reach_step m now tb ts m' : reachable ok m -> step m now = Match tb ts m' -> reachable ok m'
  | reach_execute m now : reachable ok m -> reachable ok (snd (execute m now)).

(** The successive iterations of the loop: each entry is the state before
    the iteration and the two trades it yields. *)
Inductive steps (now : Z) : market -> list (market * trade * trade) -> market -> Prop :=
  | steps_nil m : steps now m [] m
  | steps_cons m tb ts m' ps m'' :
      step m now = Match tb ts m' -> steps now m' ps m'' ->
      steps now m ((m, tb, ts) :: ps) m''.

Definition flatten_pairs (ps : list (market * trade * trade)) : list trade :=
  List.flat_map (fun p => [p.1.2; p.2]) ps.

(** What one match yields, read off the two top orders of [m]. *)
Definition match_shape (m : market) (now : Z) (tb ts : trade) : Prop :=
  exists b s p,
    last_opt (buying m) = Some b /\ hd_error (selling m) = Some s /\
    tb = mk_trade (name m) (Some p) now (Z.min (amount b) (- amount s)) (agent b) /\
    ts = mk_trade (name m) (Some p) now (- Z.min (amount b) (- amount s)) (agent s).

(** The book of [test_market_simple] before its first [execute]. *)
Definition test_simple_book : market :=
  let m := new_market "grain" 0 in
  let m := sell "agent A" 250 (Some 400) 1 true m in
  let m := buy "agent B" 500 (Some 410) 2 true m in
  let m := sell "agent C" 200 (Some 400) 2 true m in
  let m := sell "agent D" 200 (Some 401) 3 true m in
  let m := sell "agent E" 100 (Some 410) 5 true m in
  buy "agent F" 10 (Some 399) 6 true m.

(** ** Queries: [market.open] and [market.price] *)

(** [market.open]: the orders of [a] in [self.buying + self.selling]. *)
Definition open (a : string) (m : market) : list trade :=
  List.filter (fun o => String.eqb (agent o) a) (buying m ++ selling m).

(** The [Prices] namedtuple; [exchange.price] fills it with [None]s. *)
Record prices := mk_prices { bid : option Z; ask : option Z; last : option Z }.

(** [market.price]: the first limit price scanning [reversed(self.buying)],
    the first scanning [self.selling], [0.] when there is none. *)
Definition market_price (m : market) : prices :=
  mk_prices (Some (default 0 (first_limit (rev (buying m)))))
            (Some (default 0 (first_limit (selling m))))
            (Some (lastprice m)).

(** ** The rest of [exchange] *)

(** [exchange.price]. *)
Definition ex_price (sec : string) (ex : exchange) : prices :=
  match markets ex !! sec with
  | Some mk => market_price mk
  | None => mk_prices None None None
  end.

(** [exchange.execute]: each market's generator is run to its end, in the
    dictionary's iteration order; each only mutates its own market. *)
Definition ex_execute (now : Z) (ex : exchange) : list trade * exchange :=
  (List.flat_map (fun kv => fst (execute kv.2 now)) (map_to_list (markets ex)),
   mk_exchange (ex_name ex) ((fun mk => snd (execute mk now)) <$> markets ex)).

(** Exchanges reachable from [exchange(name)] through its operations. *)
Inductive ex_reachable : exchange -> Prop :=
  | exr_new nm : ex_reachable (mk_exchange nm ∅)
  | exr_buy clock sec a amt pr now u ex :
      ex_reachable ex -> ex_reachable (ex_buy clock sec a amt pr now u ex)
  | exr_sell clock sec a amt pr now u ex :
      ex_reachable ex -> ex_reachable (ex_sell clock sec a amt pr now u ex)
  | exr_enter clock o u ex :
      ex_reachable ex -> ex_reachable (ex_enter clock o u ex)
  | exr_execute now ex :
      ex_reachable ex -> ex_reachable (snd (ex_execute now ex)).

(** ** The caller: [actor.record] *)




(** Total quantity of a book. *)
Definition sum_amounts (l : list trade) : Z := fold_right (fun o acc => amount o + acc) 0 l.

(** Every order resting in [m'] is an order of [m] whose quantity moved
    toward zero. *)
Definition residual_of (m m' : market) : Prop :=
  (forall o', In o' (buying m') ->
     exists o, In o (buying m) /\ o' = set_amount o (amount o') /\ amount o' <= amount o) /\
  (forall o', In o' (selling m') ->
     exists o, In o (selling m) /\ o' = set_amount o (amount o') /\ amount o <= amount o').

(** [exchange.open]: the agent's open orders, market by market. *)
Definition ex_open (a : string) (ex : exchange) : list trade :=
  List.flat_map (fun kv => open a kv.2) (map_to_list (markets ex)).





(** Every market sits under its own name and holds only orders of that
    security. *)
Definition books_sec (k : string) (m : market) : Prop :=
  name m = k /\ forall o, In o (buying m ++ selling m) -> security o = k.

(** A small exchange: a seller and a buyer of grain, a buyer of wheat. *)
Definition w_exchange : exchange :=
  let ex := mk_exchange "exch" ∅ in
  let ex := ex_enter 0 (mk_trade "grain" (Some 1000) 1 (-100) "b") true ex in
  let ex := ex_buy 0 "grain" "a" 90 (Some 1100) 1 true ex in
  ex_enter 0 (mk_trade "wheat" (Some 500) 2 5 "a") true ex.



(** * Proofs *)

Ltac zbool :=
  repeat match goal with
  | |- context [Z.ltb ?a ?b] => destruct (Z.ltb_spec a b)
  | |- context [Z.leb ?a ?b] => destruct (Z.leb_spec a b)
  | |- context [Z.eqb ?a ?b] => destruct (Z.eqb_spec a b)
  | H : context [Z.ltb ?a ?b] |- _ => destruct (Z.ltb_spec a b)
  | H : context [Z.leb ?a ?b] |- _ => destruct (Z.leb_spec a b)
  | H : context [Z.eqb ?a ?b] |- _ => destruct (Z.eqb_spec a b)
  end; simpl in *.

(** ** Keys and sorting *)

Definition key_le (k1 k2 : ext * Z) : Prop := key_leb k1 k2 = true.

Lemma key_le_total k1 k2 : key_le k1 k2 \/ key_le k2 k1.
Proof.
  destruct k1 as [[|x|] t1], k2 as [[|y|] t2]; unfold key_le, key_leb; simpl;
    zbool; auto; lia.
Qed.

Lemma key_le_trans k1 k2 k3 : key_le k1 k2 -> key_le k2 k3 -> key_le k1 k3.
Proof.
  destruct k1 as [[|x|] t1], k2 as [[|y|] t2], k3 as [[|z|] t3];
    unfold key_le, key_leb; simpl; zbool; auto; try discriminate; lia.
Qed.

Lemma key_le_same_price e t1 t2 : key_le (e, t1) (e, t2) -> t1 <= t2.
Proof.
  destruct e as [|x|]; unfold key_le, key_leb; simpl; zbool; try discriminate; lia.
Qed.

Lemma in_insort key x l y : In y (insort key x l) -> y = x \/ In y l.
Proof.
  induction l as [|z l IH]; simpl; [intuition|].
  destruct (key_leb (key z) (key x)); simpl; intuition.
Qed.

Lemma in_sort_by_acc key l acc y :
  In y (fold_left (fun acc x => insort key x acc) l acc) -> In y l \/ In y acc.
Proof.
  revert acc; induction l as [|x l IH]; simpl; intros acc H; [auto|].
  destruct (IH _ H) as [?|H1]; [auto|].
  destruct (in_insort _ _ _ _ H1); auto.
Qed.

Lemma in_sort_by key l y : In y (sort_by key l) -> In y l.
Proof.
  unfold sort_by; intros H; destruct (in_sort_by_acc _ _ _ _ H) as [?|[]]; auto.
Qed.

Lemma in_insort_self key x l : In x (insort key x l).
Proof.
  induction l as [|z l IH]; simpl; [auto|].
  destruct (key_leb (key z) (key x)); simpl; auto.
Qed.

Lemma in_insort_keep key x l y : In y l -> In y (insort key x l).
Proof.
  induction l as [|z l IH]; simpl; [tauto|].
  destruct (key_leb (key z) (key x)); simpl; intuition.
Qed.

Lemma in_sort_by_acc_r key l acc y :
  In y l \/ In y acc -> In y (fold_left (fun acc x => insort key x acc) l acc).
Proof.
  revert acc; induction l as [|x l IH]; simpl; intros acc H.
  - intuition.
  - apply IH. destruct H as [[->|H]|H].
    + right; apply in_insort_self.
    + auto.
    + right; apply in_insort_keep; auto.
Qed.

Lemma in_sort_by_r key l y : In y l -> In y (sort_by key l).
Proof. intros H; apply in_sort_by_acc_r; auto. Qed.

Definition sorted_keys (key : trade -> ext * Z) (l : list trade) : Prop :=
  StronglySorted key_le (map key l).

Lemma insort_sorted key x l : sorted_keys key l -> sorted_keys key (insort key x l).
Proof.
  unfold sorted_keys; induction l as [|y l IH]; simpl; intros H.
  - repeat constructor.
  - apply StronglySorted_inv in H as [Hs Hf].
    destruct (key_leb (key y) (key x)) eqn:E; simpl.
    + constructor; [auto|].
      apply List.Forall_forall; intros k Hk. apply in_map_iff in Hk as [z [<- Hz]].
      destruct (in_insort _ _ _ _ Hz) as [->|Hz']; [exact E|].
      rewrite List.Forall_forall in Hf; apply Hf, in_map; auto.
    + assert (Hxy : key_le (key x) (key y)).
      { destruct (key_le_total (key x) (key y)) as [?|H']; auto. unfold key_le in H'; congruence. }
      constructor; [constructor; auto|].
      constructor; [auto|].
      apply List.Forall_forall; intros k Hk.
      eapply key_le_trans; [exact Hxy|]. rewrite List.Forall_forall in Hf; auto.
Qed.

Lemma sort_by_sorted key l : sorted_keys key (sort_by key l).
Proof.
  unfold sort_by.
  assert (G : forall acc, sorted_keys key acc ->
             sorted_keys key (fold_left (fun acc x => insort key x acc) l acc)).
  { induction l as [|x l IH]; simpl; intros acc H; auto. apply IH, insort_sorted, H. }
  apply G; constructor.
Qed.

Lemma filter_sorted key f l : sorted_keys key l -> sorted_keys key (List.filter f l).
Proof.
  unfold sorted_keys; induction l as [|y l IH]; simpl; intros H; auto.
  apply StronglySorted_inv in H as [Hs Hf].
  destruct (f y); simpl; auto.
  constructor; auto.
  apply List.Forall_forall; intros k Hk. apply in_map_iff in Hk as [z [<- Hz]].
  apply filter_In in Hz as [Hz _].
  rewrite List.Forall_forall in Hf; apply Hf, in_map; auto.
Qed.

Lemma sorted_app_l key l1 l2 : sorted_keys key (l1 ++ l2) -> sorted_keys key l1.
Proof.
  unfold sorted_keys; induction l1 as [|y l IH]; simpl; intros H; [constructor|].
  apply StronglySorted_inv in H as [Hs Hf].
  constructor; auto.
  apply List.Forall_forall; intros k Hk. rewrite List.Forall_forall in Hf; apply Hf.
  rewrite map_app; apply in_or_app; auto.
Qed.

Lemma sorted_nth key l i j x y :
  sorted_keys key l -> (i < j)%nat -> nth_error l i = Some x -> nth_error l j = Some y ->
  key_le (key x) (key y).
Proof.
  unfold sorted_keys; revert i j; induction l as [|z l IH]; intros i j H Hij Hi Hj.
  - destruct i; discriminate.
  - apply StronglySorted_inv in H as [Hs Hf].
    destruct i as [|i], j as [|j]; simpl in *; try lia.
    + injection Hi as <-. rewrite List.Forall_forall in Hf; apply Hf, in_map.
      eapply nth_error_In; eauto.
    + apply (IH i j); auto; lia.
Qed.

(** ** One iteration of the loop *)

Lemma last_opt_spec l b : last_opt l = Some b -> l = removelast l ++ [b].
Proof.
  unfold last_opt; destruct (rev l) as [|x r] eqn:E; intros H; [discriminate|].
  injection H as <-.
  assert (Hl : l = rev r ++ [x]) by (rewrite <- (rev_involutive l), E; reflexivity).
  rewrite Hl, removelast_last; reflexivity.
Qed.

Lemma last_opt_app l b : last_opt (l ++ [b]) = Some b.
Proof. unfold last_opt; rewrite rev_app_distr; reflexivity. Qed.

Lemma step_match_inv m now tb ts m' :
  step m now = Match tb ts m' ->
  exists b s srest p amt,
    last_opt (buying m) = Some b /\ selling m = s :: srest /\ crossed s b = true /\
    trade_price (buying m) (selling m) b s = Some p /\
    amt = Z.min (amount b) (- amount s) /\
    tb = mk_trade (name m) (Some p) now amt (agent b) /\
    ts = mk_trade (name m) (Some p) now (- amt) (agent s) /\
    m' = mk_market (name m) (mnow m)
           (if amt =? amount b then removelast (buying m)
            else removelast (buying m) ++ [set_amount b (amount b - amt)])
           (if amt =? - amount s then srest else set_amount s (amount s + amt) :: srest)
           p (transaction m + 1).
Proof.
  unfold step.
  destruct (last_opt (buying m)) as [b|] eqn:Hb; [|discriminate].
  destruct (selling m) as [|s srest] eqn:Hs; [discriminate|].
  destruct (crossed s b) eqn:Ec; [|discriminate].
  destruct (trade_price _ _ b s) as [p|] eqn:Ep; [|discriminate].
  intros H; injection H as <- <- <-.
  exists b, s, srest, p, (Z.min (amount b) (- amount s)); repeat split; auto.
Qed.

(** Each iteration that yields removes at least one resting order. *)
Lemma step_size m now tb ts m' :
  step m now = Match tb ts m' -> (size m' < size m)%nat.
Proof.
  intros H; apply step_match_inv in H as (b & s & srest & p & amt & Hb & Hs & _ & _ & -> & _ & _ & ->).
  unfold size; simpl. rewrite Hs.
  pose proof (last_opt_spec _ _ Hb) as Hl.
  assert (Hlen : length (buying m) = S (length (removelast (buying m)))).
  { rewrite Hl at 1; rewrite length_app; simpl; lia. }
  rewrite Hlen; simpl.
  destruct (Z.min_spec (amount b) (- amount s)) as [[_ E]|[_ E]]; rewrite E; zbool;
    rewrite ?length_app; simpl; lia.
Qed.

(** The loop either exits or yields two trades: it is [Stop] or [NoPrice]. *)
Definition loop_exits (m : market) (now : Z) : Prop :=
  match step m now with Match _ _ _ => False | _ => True end.

Lemma run_exits f m now :
  (size m < f)%nat ->
  loop_exits (snd (run f m now)) now /\ (length (fst (run f m now)) <= 2 * size m)%nat.
Proof.
  revert m; induction f as [|f IH]; intros m Hf; [lia|].
  simpl. unfold loop_exits at 1.
  destruct (step m now) as [| |tb ts m'] eqn:E; simpl.
  - rewrite E; split; auto; lia.
  - rewrite E; split; auto; lia.
  - pose proof (step_size _ _ _ _ _ E) as Hs.
    destruct (IH m' ltac:(lia)) as [H1 H2].
    destruct (run f m' now) as [tr m''] eqn:Er; simpl in *; split; auto; lia.
Qed.

Lemma run_steps f m now :
  exists ps, steps now m ps (snd (run f m now)) /\ fst (run f m now) = flatten_pairs ps.
Proof.
  revert m; induction f as [|f IH]; intros m; simpl.
  - exists []; split; [constructor|reflexivity].
  - destruct (step m now) as [| |tb ts m'] eqn:E; simpl;
      try (exists []; split; [constructor|reflexivity]).
    destruct (IH m') as [ps [H1 H2]].
    destruct (run f m' now) as [tr m''] eqn:Er; simpl in *.
    exists ((m, tb, ts) :: ps); split; [econstructor; eauto|simpl; rewrite H2; reflexivity].
Qed.

(** Any property kept by every iteration holds after [execute]. *)
Lemma run_preserves (P : market -> Prop) now :
  (forall m tb ts m', step m now = Match tb ts m' -> P m -> P m') ->
  forall f m, P m -> P (snd (run f m now)).
Proof.
  intros HP f; induction f as [|f IH]; intros m Hm; simpl; auto.
  destruct (step m now) as [| |tb ts m'] eqn:E; simpl; auto.
  destruct (run f m' now) as [tr m''] eqn:Er.
  change m'' with (snd (tr, m'')); rewrite <- Er; eauto.
Qed.

(** ** Invariants of reachable states *)

Lemma reachable_inv (ok : trade -> Prop) (P : market -> Prop) :
  (forall nm t, P (new_market nm t)) ->
  (forall o u m, ok o -> P m -> P (enter o u m)) ->
  (forall a m, P m -> P (close a m)) ->
  (forall m now tb ts m', step m now = Match tb ts m' -> P m -> P m') ->
  forall m, reachable ok m -> P m.
Proof.
  intros Hnew Henter Hclose Hstep m Hr; induction Hr.
  - auto.
  - auto.
  - unfold buy; auto.
  - unfold sell; auto.
  - auto.
  - eauto.
  - unfold execute; apply run_preserves; eauto.
Qed.

Lemma in_removelast (l : list trade) x : In x (removelast l) -> In x l.
Proof.
  induction l as [|y l IH]; simpl; [tauto|].
  destruct l as [|z l]; simpl in *; [tauto|].
  intros [->|H]; auto.
Qed.

(** Orders of both books satisfy sign conditions on their amounts. *)
Definition signs (pos : Z -> Prop) (m : market) : Prop :=
  (forall o, In o (buying m) -> pos (amount o)) /\
  (forall o, In o (selling m) -> amount o < 0).

Lemma close_signs pos a m : signs pos m -> signs pos (close a m).
Proof.
  intros [Hb Hs]; split; simpl; intros o Ho; apply filter_In in Ho as [Ho _]; auto.
Qed.

Lemma enter_signs (pos : Z -> Prop) o u m :
  (0 <= amount o -> pos (amount o)) -> signs pos m -> signs pos (enter o u m).
Proof.
  intros Ho Hm.
  assert (Hm1 : signs pos (if u then close (agent o) m else m))
    by (destruct u; auto using close_signs).
  destruct Hm1 as [Hb Hs].
  unfold enter; destruct (Z.leb_spec 0 (amount o)); split; simpl; auto;
    intros y Hy; apply in_sort_by, in_app_or in Hy as [Hy|[<-|[]]]; auto; lia.
Qed.

Lemma step_signs (pos : Z -> Prop) m now tb ts m' :
  (forall x, 0 < x -> pos x) ->
  step m now = Match tb ts m' -> signs pos m -> signs pos m'.
Proof.
  intros Hpos H [Hb Hs].
  apply step_match_inv in H as (b & s & srest & p & amt & Hlb & Hsl & _ & _ & Ha & _ & _ & ->).
  split; simpl.
  - intros o Ho. destruct (Z.eqb_spec amt (amount b)).
    + apply Hb, in_removelast, Ho.
    + apply in_app_or in Ho as [Ho|[<-|[]]]; [apply Hb, in_removelast, Ho|].
      simpl; apply Hpos. destruct (Z.min_spec (amount b) (- amount s)); lia.
  - intros o Ho. rewrite Hsl in Hs.
    destruct (Z.eqb_spec amt (- amount s)).
    + apply Hs; right; exact Ho.
    + destruct Ho as [<-|Ho]; [|apply Hs; right; exact Ho].
      simpl. assert (amount s < 0) by (apply Hs; left; auto).
      destruct (Z.min_spec (amount b) (- amount s)); lia.
Qed.

Lemma reachable_signs (ok : trade -> Prop) (pos : Z -> Prop) :
  (forall x, 0 < x -> pos x) ->
  (forall o, ok o -> 0 <= amount o -> pos (amount o)) ->
  forall m, reachable ok m -> signs pos m.
Proof.
  intros Hpos Hok; apply reachable_inv.
  - intros; split; simpl; tauto.
  - intros o u m Ho Hm; apply enter_signs; auto.
  - intros; apply close_signs; auto.
  - intros; eapply step_signs; eauto.
Qed.

(** Both books are sorted on their keys. *)
Definition books_sorted (m : market) : Prop :=
  sorted_keys buy_book_key (buying m) /\ sorted_keys sell_book_key (selling m).

Lemma sorted_keys_map_eq key l1 l2 :
  map key l1 = map key l2 -> sorted_keys key l1 -> sorted_keys key l2.
Proof. unfold sorted_keys; intros ->; auto. Qed.

Lemma close_sorted a m : books_sorted m -> books_sorted (close a m).
Proof. intros [Hb Hs]; split; apply filter_sorted; auto. Qed.

Lemma enter_sorted o u m : books_sorted m -> books_sorted (enter o u m).
Proof.
  intros Hm.
  assert (Hm1 : books_sorted (if u then close (agent o) m else m))
    by (destruct u; auto using close_sorted).
  destruct Hm1 as [Hb Hs].
  unfold enter; destruct (0 <=? amount o); split; simpl; auto using sort_by_sorted.
Qed.

Lemma step_sorted m now tb ts m' :
  step m now = Match tb ts m' -> books_sorted m -> books_sorted m'.
Proof.
  intros H [Hb Hs].
  apply step_match_inv in H as (b & s & srest & p & amt & Hlb & Hsl & _ & _ & _ & _ & _ & ->).
  pose proof (last_opt_spec _ _ Hlb) as Hl.
  rewrite Hl in Hb. rewrite Hsl in Hs.
  split; simpl.
  - destruct (amt =? amount b).
    + eapply sorted_app_l; eauto.
    + eapply sorted_keys_map_eq; [|exact Hb].
      rewrite !map_app; reflexivity.
  - destruct (amt =? - amount s).
    + unfold sorted_keys in *; simpl in Hs; apply StronglySorted_inv in Hs; tauto.
    + eapply sorted_keys_map_eq; [|exact Hs]; reflexivity.
Qed.

Lemma reachable_sorted (ok : trade -> Prop) m : reachable ok m -> books_sorted m.
Proof.
  apply reachable_inv.
  - intros; split; constructor.
  - intros; apply enter_sorted; auto.
  - intros; apply close_sorted; auto.
  - intros; eapply step_sorted; eauto.
Qed.

(** ** Price lemmas *)

Lemma first_limit_none (l : list trade) :
  (forall o, In o l -> price o = None) -> first_limit l = None.
Proof.
  induction l as [|o l IH]; simpl; intros H; auto.
  rewrite (H o (or_introl eq_refl)); simpl. apply IH; auto.
Qed.

Lemma step_tops m now tb ts m' b s :
  last_opt (buying m) = Some b -> hd_error (selling m) = Some s ->
  step m now = Match tb ts m' ->
  trade_price (buying m) (selling m) b s = price tb /\ price ts = price tb /\
  tb = mk_trade (name m) (price tb) now (Z.min (amount b) (- amount s)) (agent b) /\
  ts = mk_trade (name m) (price tb) now (- Z.min (amount b) (- amount s)) (agent s).
Proof.
  intros Hb Hs H.
  apply step_match_inv in H as (b' & s' & srest & p & amt & Hb' & Hs' & _ & Hp & -> & -> & -> & _).
  rewrite Hb in Hb'; injection Hb' as <-.
  rewrite Hs' in Hs; injection Hs as <-.
  simpl; repeat split; auto.
Qed.

(** * Claims *)

(** ** C1: the end-to-end scenario of [test_market_simple] *)

(** C1 (as stated, refuted): after the six entries, [execute(now=6)] does
    not leave D with a residual sell of 50@4.01 after trading 150: D trades
    50 units and keeps 150. *)
Lemma scenario_claim_counterexample :
  ~ (let r := execute test_simple_book 6 in
     length (fst r) = 6%nat /\
     (forall t, In t (fst r) -> agent t = "agent A" \/ agent t = "agent C" -> price t = Some 410) /\
     (exists t, In t (fst r) /\ agent t = "agent D" /\ amount t = -150 /\ price t = Some 401) /\
     buying (snd r) = [mk_trade "grain" (Some 399) 6 10 "agent F"] /\
     selling (snd r) = [mk_trade "grain" (Some 401) 3 (-50) "agent D";
                        mk_trade "grain" (Some 410) 5 (-100) "agent E"]).
Proof.
  cbv zeta. intros (_ & _ & _ & _ & Hs).
  vm_compute in Hs. congruence.
Qed.

(** C1 (amended): [execute(now=6)] on the book of [test_market_simple]
    yields exactly these six trades (B with C and with A at 4.10, B with D
    for 50 units at 4.01); afterwards the buy book holds F's 10@3.99 and the
    sell book D's residual 150@4.01 and E's 100@4.10. *)
Theorem scenario_execute :
  execute test_simple_book 6 =
  ([mk_trade "grain" (Some 410) 6 200 "agent B"; mk_trade "grain" (Some 410) 6 (-200) "agent C";
    mk_trade "grain" (Some 410) 6 250 "agent B"; mk_trade "grain" (Some 410) 6 (-250) "agent A";
    mk_trade "grain" (Some 401) 6 50 "agent B"; mk_trade "grain" (Some 401) 6 (-50) "agent D"],
   mk_market "grain" 0
     [mk_trade "grain" (Some 399) 6 10 "agent F"]
     [mk_trade "grain" (Some 401) 3 (-150) "agent D"; mk_trade "grain" (Some 410) 5 (-100) "agent E"]
     401 3).
Proof. vm_compute. reflexivity. Qed.

(** ** C3: [exchange.sell] *)

(** C3: [exchange.sell("grain", "agent A", 10, 4.00, now=1)] on an empty
    exchange creates the market but enters a BUY of +10 (it calls the
    market's [buy]), while [market.sell] with the same arguments enters a
    sell of -10 in the selling book. *)
Theorem exchange_sell_enters_buy :
  markets (ex_sell 0 "grain" "agent A" 10 (Some 400) 1 true (mk_exchange "GSE" ∅)) !! "grain"
    = Some (mk_market "grain" 0 [mk_trade "grain" (Some 400) 1 10 "agent A"] [] 0 0) /\
  sell "agent A" 10 (Some 400) 1 true (new_market "grain" 0)
    = mk_market "grain" 0 [] [mk_trade "grain" (Some 400) 1 (-10) "agent A"] 0 0.
Proof. split; vm_compute; reflexivity. Qed.

(** ** C4: zero-quantity orders *)

(** C4 (as stated, refuted): an order of quantity 0 entered in a new market
    is found in its buying book. *)
Lemma enter_zero_counterexample :
  ~ (forall o u m, amount o = 0 ->
       ~ In o (buying (enter o u m)) /\ ~ In o (selling (enter o u m))).
Proof.
  intros H.
  destruct (H (mk_trade "grain" (Some 400) 1 0 "agent A") true (new_market "grain" 0) eq_refl)
    as [Hb _].
  apply Hb. vm_compute. left; reflexivity.
Qed.

(** C4 (amended): [enter] does not reject an order of quantity 0: after the
    replace-triggered close it is inserted into the buying book, and the
    selling book is left as the close left it. *)
Theorem enter_zero_goes_to_buying o u m :
  amount o = 0 ->
  In o (buying (enter o u m)) /\
  selling (enter o u m) = selling (if u then close (agent o) m else m).
Proof.
  intros H0. unfold enter. rewrite H0; simpl.
  split; [|reflexivity].
  apply in_sort_by_r, in_or_app; right; left; reflexivity.
Qed.

Lemma enter_zero_goes_to_buying_witness :
  amount (mk_trade "grain" (Some 400) 1 0 "agent A") = 0 /\
  In (mk_trade "grain" (Some 400) 1 0 "agent A")
     (buying (enter (mk_trade "grain" (Some 400) 1 0 "agent A") true test_simple_book)) /\
  selling (enter (mk_trade "grain" (Some 400) 1 0 "agent A") true test_simple_book)
    = selling (close "agent A" test_simple_book).
Proof.
  split; [reflexivity|].
  apply (enter_zero_goes_to_buying (mk_trade "grain" (Some 400) 1 0 "agent A") true test_simple_book).
  reflexivity.
Defined.

(** ** C2: the price-setting rule *)

(** C2: when an iteration of [execute] matches top orders [b] (buy) and [s]
    (sell) with distinct timestamps, the trade price is the limit price of
    the more recent of the two; if that one is a market order, it is the
    limit price of the other one. *)
Theorem price_setting_rule m now b s :
  last_opt (buying m) = Some b -> hd_error (selling m) = Some s -> time b <> time s ->
  match step m now with
  | Match tb _ _ =>
      let recent := if time b <? time s then s else b in
      let other := if time b <? time s then b else s in
      (forall p, price recent = Some p -> price tb = Some p) /\
      (price recent = None -> forall q, price other = Some q -> price tb = Some q)
  | _ => True
  end.
Proof.
  intros Hb Hs Ht.
  destruct (step m now) as [| |tb ts m'] eqn:E; auto.
  destruct (step_tops _ _ _ _ _ _ _ Hb Hs E) as [Hp _].
  rewrite <- Hp. unfold trade_price.
  destruct (Z.ltb_spec (time b) (time s)); simpl;
    destruct (price s), (price b); simpl; split; intros; congruence.
Qed.

Definition w_limit_book : market :=
  sell "seller" 5 (Some 400) 2 true (buy "buyer" 5 (Some 410) 1 true (new_market "grain" 0)).

Lemma price_setting_rule_witness :
  last_opt (buying w_limit_book) = Some (mk_trade "grain" (Some 410) 1 5 "buyer") /\
  hd_error (selling w_limit_book) = Some (mk_trade "grain" (Some 400) 2 (-5) "seller") /\
  time (mk_trade "grain" (Some 410) 1 5 "buyer") <> time (mk_trade "grain" (Some 400) 2 (-5) "seller") /\
  match step w_limit_book 0 with
  | Match tb _ _ => price tb = Some 400
  | _ => False
  end /\
  match step w_limit_book 0 with
  | Match tb _ _ =>
      (forall p, Some 400 = Some p -> price tb = Some p) /\
      (Some 400 = None -> forall q, Some 410 = Some q -> price tb = Some q)
  | _ => True
  end.
Proof.
  split; [reflexivity|]. split; [reflexivity|]. split; [simpl; lia|].
  split; [vm_compute; reflexivity|].
  exact (price_setting_rule w_limit_book 0 (mk_trade "grain" (Some 410) 1 5 "buyer")
           (mk_trade "grain" (Some 400) 2 (-5) "seller") eq_refl eq_refl ltac:(simpl; lia)).
Defined.

(** ** C10: equal timestamps *)

(** C10: when the two matched top orders have the same timestamp, the price
    is the buyer's limit price; only when the buyer is a market order is it
    the seller's limit price, and only when both are market orders is it the
    first limit price found scanning the selling book and then the buying
    book from its top. *)
Theorem equal_time_buyer_sets_price m now b s :
  last_opt (buying m) = Some b -> hd_error (selling m) = Some s -> time b = time s ->
  match step m now with
  | Match tb _ _ =>
      price tb = match price b with
                 | Some p => Some p
                 | None => match price s with
                           | Some q => Some q
                           | None => first_limit (selling m ++ rev (buying m))
                           end
                 end
  | _ => True
  end.
Proof.
  intros Hb Hs Ht.
  destruct (step m now) as [| |tb ts m'] eqn:E; auto.
  destruct (step_tops _ _ _ _ _ _ _ Hb Hs E) as [Hp _].
  rewrite <- Hp. unfold trade_price.
  rewrite Ht, Z.ltb_irrefl. destruct (price b), (price s); reflexivity.
Qed.

Lemma equal_time_buyer_sets_price_witness :
  last_opt (buying test_simple_book) = Some (mk_trade "grain" (Some 410) 2 500 "agent B") /\
  hd_error (selling test_simple_book) = Some (mk_trade "grain" (Some 400) 2 (-200) "agent C") /\
  match step test_simple_book 6 with
  | Match tb _ _ => price tb = Some 410
  | _ => False
  end.
Proof.
  split; [reflexivity|]. split; [reflexivity|].
  pose proof (equal_time_buyer_sets_price test_simple_book 6
                (mk_trade "grain" (Some 410) 2 500 "agent B")
                (mk_trade "grain" (Some 400) 2 (-200) "agent C") eq_refl eq_refl eq_refl) as H.
  vm_compute in H |- *. exact H.
Defined.

(** ** C6: two trades per match *)

(** C6: the trades [execute] yields are the concatenation of one pair per
    match, in order; each pair is first the buyer's trade of [+amount] with
    the owner of the top buy order, then the seller's trade of [-amount]
    with the owner of the top sell order, both at the same price and at time
    [now], [amount] being the smaller of the two top quantities. *)
Theorem execute_trade_pairs m now :
  exists ps,
    steps now m ps (snd (execute m now)) /\
    fst (execute m now) = flatten_pairs ps /\
    List.Forall (fun '(m0, tb, ts) =>
      match_shape m0 now tb ts /\ amount tb = - amount ts /\
      price tb = price ts /\ time tb = time ts) ps.
Proof.
  destruct (run_steps (S (size m)) m now) as [ps [Hs Hf]].
  exists ps; unfold execute; split; [exact Hs|split; [exact Hf|]].
  clear Hf. induction Hs as [m|m tb ts m' ps m'' E _ IH]; constructor; auto.
  apply step_match_inv in E as (b & s & srest & p & amt & Hb & Hsl & _ & _ & -> & -> & -> & _).
  simpl; split; [|repeat split; lia].
  exists b, s, p; rewrite Hsl; repeat split; auto.
Qed.

(** ** C7: no price discovery *)

(** C7: when the two crossed top orders are market orders and no order of
    either book has a limit price, the iteration breaks: [execute] yields
    nothing and leaves the market unchanged. *)
Theorem no_price_discovery_halts m now b s :
  last_opt (buying m) = Some b -> hd_error (selling m) = Some s ->
  price b = None -> price s = None ->
  (forall o, In o (buying m) -> price o = None) ->
  (forall o, In o (selling m) -> price o = None) ->
  step m now = NoPrice /\ execute m now = ([], m).
Proof.
  intros Hb Hs Hpb Hps Hall_b Hall_s.
  assert (Hp : trade_price (buying m) (selling m) b s = None).
  { unfold trade_price; rewrite Hpb, Hps; simpl.
    destruct (time b <? time s); simpl; apply first_limit_none;
      intros o Ho; apply in_app_or in Ho as [Ho|Ho]; rewrite <- ?in_rev in Ho; auto. }
  assert (E : step m now = NoPrice).
  { unfold step; rewrite Hb.
    destruct (selling m) as [|s' srest] eqn:Hsl; [discriminate|].
    simpl in Hs; injection Hs as Hss; subst s'.
    assert (Hc : crossed s b = true) by (unfold crossed; rewrite Hps; reflexivity).
    rewrite Hc, Hp; reflexivity. }
  split; [exact E|]. unfold execute; simpl; rewrite E; reflexivity.
Qed.

Definition w_market_book : market :=
  sell "agent J" 3 None 10 true (buy "agent I" 3 None 9 true (new_market "grain" 0)).

Lemma no_price_discovery_halts_witness :
  last_opt (buying w_market_book) = Some (mk_trade "grain" None 9 3 "agent I") /\
  hd_error (selling w_market_book) = Some (mk_trade "grain" None 10 (-3) "agent J") /\
  step w_market_book 10 = NoPrice /\ execute w_market_book 10 = ([], w_market_book).
Proof.
  split; [reflexivity|]. split; [reflexivity|].
  apply (no_price_discovery_halts w_market_book 10 (mk_trade "grain" None 9 3 "agent I")
           (mk_trade "grain" None 10 (-3) "agent J")); try reflexivity;
    intros o Ho; vm_compute in Ho; destruct Ho as [<-|[]]; reflexivity.
Defined.

(** ** C9: termination of [execute] *)

(** C9: every iteration that yields removes at least one resting order; the
    loop therefore stops (at a [Stop] or a [break]) within the iterations
    [execute] allows, after yielding at most twice as many trades as there
    were resting orders. *)
Theorem execute_terminates m now :
  match step m now with Match _ _ m' => (size m' < size m)%nat | _ => True end /\
  loop_exits (snd (execute m now)) now /\
  (length (fst (execute m now)) <= 2 * size m)%nat.
Proof.
  split.
  - destruct (step m now) eqn:E; auto. eapply step_size; eauto.
  - apply run_exits; lia.
Qed.

(** ** C5: tie-break among equal prices *)

(** C5: in every reachable state, of two orders of the same book at the same
    price with different timestamps, the more recent one is consumed first:
    in the selling book (consumed from its head) it comes earlier, in the
    buying book (consumed from its tail) it comes later. *)
Theorem equal_price_most_recent_first (ok : trade -> Prop) m :
  reachable ok m ->
  (forall i j o1 o2, (i < j)%nat ->
     nth_error (selling m) i = Some o1 -> nth_error (selling m) j = Some o2 ->
     price o1 = price o2 -> time o1 <> time o2 -> time o2 < time o1) /\
  (forall i j o1 o2, (i < j)%nat ->
     nth_error (buying m) i = Some o1 -> nth_error (buying m) j = Some o2 ->
     price o1 = price o2 -> time o1 <> time o2 -> time o1 < time o2).
Proof.
  intros Hr; destruct (reachable_sorted _ _ Hr) as [Hb Hs].
  split; intros i j o1 o2 Hij H1 H2 Hp Ht.
  - pose proof (sorted_nth _ _ _ _ _ _ Hs Hij H1 H2) as K.
    unfold sell_book_key in K; rewrite Hp in K.
    apply key_le_same_price in K; lia.
  - pose proof (sorted_nth _ _ _ _ _ _ Hb Hij H1 H2) as K.
    unfold buy_book_key in K; rewrite Hp in K.
    apply key_le_same_price in K; lia.
Qed.

Lemma test_simple_book_reachable : reachable (fun o => amount o <> 0) test_simple_book.
Proof.
  unfold test_simple_book; cbv zeta.
  repeat first [apply reach_new | apply reach_buy | apply reach_sell | simpl; lia].
Qed.

Lemma equal_price_most_recent_first_witness :
  reachable (fun o => amount o <> 0) test_simple_book /\
  nth_error (selling test_simple_book) 0%nat = Some (mk_trade "grain" (Some 400) 2 (-200) "agent C") /\
  nth_error (selling test_simple_book) 1%nat = Some (mk_trade "grain" (Some 400) 1 (-250) "agent A") /\
  time (mk_trade "grain" (Some 400) 1 (-250) "agent A")
    < time (mk_trade "grain" (Some 400) 2 (-200) "agent C").
Proof.
  split; [exact test_simple_book_reachable|].
  split; [reflexivity|]. split; [reflexivity|].
  apply (proj1 (equal_price_most_recent_first _ _ test_simple_book_reachable) 0%nat 1%nat); try reflexivity.
  - lia.
  - simpl; lia.
Defined.

(** ** C8: signs of the book quantities *)

(** C8 (as stated, refuted): entering an order of quantity 0 in a new market
    stores it in the buying book. *)
Lemma zero_quantity_counterexample :
  ~ (forall m, reachable (fun _ => True) m ->
       (forall o, In o (buying m) -> 0 < amount o) /\
       (forall o, In o (selling m) -> amount o < 0)).
Proof.
  intros H.
  assert (Hr : reachable (fun _ => True)
                 (enter (mk_trade "grain" (Some 400) 1 0 "agent A") true (new_market "grain" 0)))
    by (apply reach_enter; [exact I|apply reach_new]).
  destruct (H _ Hr) as [Hb _].
  specialize (Hb (mk_trade "grain" (Some 400) 1 0 "agent A") ltac:(vm_compute; left; reflexivity)).
  simpl in Hb; lia.
Qed.

(** C8 (amended): in every reachable state the buying book holds quantities
    [>= 0] and the selling book quantities [< 0]; [execute] never leaves a
    zero residual, so when no order of quantity 0 is entered the buying book
    holds quantities [> 0]. *)
Theorem book_sign_invariant (ok : trade -> Prop) m :
  reachable ok m ->
  signs (fun x => 0 <= x) m /\
  ((forall o, ok o -> amount o <> 0) -> signs (fun x => 0 < x) m).
Proof.
  intros Hr; split.
  - eapply reachable_signs; [| |exact Hr]; intros; lia.
  - intros Hnz. eapply reachable_signs; [| |exact Hr]; [intros; lia|].
    intros o Ho H0; specialize (Hnz o Ho); lia.
Qed.

Lemma book_sign_invariant_witness :
  reachable (fun o => amount o <> 0) test_simple_book /\
  signs (fun x => 0 < x) test_simple_book.
Proof.
  split; [exact test_simple_book_reachable|].
  apply (proj2 (book_sign_invariant _ _ test_simple_book_reachable)).
  intros o Ho; exact Ho.
Defined.

(** * Further properties of the code *)

(** ** List lemmas for [open], [enter] and [price] *)

Lemma filter_none (f : trade -> bool) l :
  (forall y, In y l -> f y = false) -> List.filter f l = [].
Proof.
  induction l as [|y l IH]; simpl; intros H; auto.
  rewrite (H y (or_introl eq_refl)); apply IH; auto.
Qed.

Lemma filter_insort_out (f : trade -> bool) key x l :
  f x = false -> List.filter f (insort key x l) = List.filter f l.
Proof.
  intros Hx; induction l as [|y l IH]; simpl.
  - rewrite Hx; reflexivity.
  - destruct (key_leb (key y) (key x)); simpl.
    + destruct (f y); rewrite IH; reflexivity.
    + rewrite Hx; reflexivity.
Qed.

Lemma sort_by_snoc key l x : sort_by key (l ++ [x]) = insort key x (sort_by key l).
Proof. unfold sort_by; rewrite fold_left_app; reflexivity. Qed.

Lemma filter_sort_by_single (f : trade -> bool) key l x :
  (forall y, In y l -> f y = false) -> f x = true ->
  List.filter f (sort_by key (l ++ [x])) = [x].
Proof.
  intros Hl Hx. rewrite sort_by_snoc.
  assert (H0 : List.filter f (sort_by key l) = [])
    by (apply filter_none; intros y Hy; apply Hl, (in_sort_by key), Hy).
  revert H0; generalize (sort_by key l) as l'.
  induction l' as [|y l' IH]; simpl; intros H0.
  - rewrite Hx; reflexivity.
  - destruct (f y) eqn:Ey; [discriminate|].
    destruct (key_leb (key y) (key x)); simpl.
    + rewrite Ey; apply IH, H0.
    + rewrite Hx, Ey, H0; reflexivity.
Qed.

Lemma sorted_app_cons_le key l1 x l2 :
  sorted_keys key (l1 ++ x :: l2) -> forall z, In z l1 -> key_le (key z) (key x).
Proof.
  unfold sorted_keys; induction l1 as [|y l1 IH]; simpl; intros H z Hz; [tauto|].
  apply StronglySorted_inv in H as [Hs Hf].
  destruct Hz as [<-|Hz]; [|apply IH; auto].
  rewrite List.Forall_forall in Hf; apply Hf.
  rewrite map_app; apply in_or_app; right; left; reflexivity.
Qed.

Lemma insort_after key y acc :
  (forall z, In z acc -> key_le (key z) (key y)) -> insort key y acc = acc ++ [y].
Proof.
  induction acc as [|z acc IH]; simpl; intros H; auto.
  rewrite (H z (or_introl eq_refl)); f_equal; auto.
Qed.

(** Sorting an already sorted book changes nothing. *)
Lemma sort_by_sorted_id key l : sorted_keys key l -> sort_by key l = l.
Proof.
  unfold sort_by.
  assert (G : forall acc, sorted_keys key (acc ++ l) ->
             fold_left (fun acc x => insort key x acc) l acc = acc ++ l).
  { induction l as [|y l IH]; simpl; intros acc H; [rewrite app_nil_r; auto|].
    rewrite insort_after by (eapply sorted_app_cons_le; eauto).
    rewrite IH; [rewrite <- app_assoc; reflexivity|].
    rewrite <- app_assoc; exact H. }
  intros H; apply (G []); exact H.
Qed.

Lemma filter_agent_close a b (l : list trade) :
  List.filter (fun o => String.eqb (agent o) b) (List.filter (not_agent a) l) =
  if String.eqb a b then [] else List.filter (fun o => String.eqb (agent o) b) l.
Proof.
  induction l as [|y l IH]; simpl; [destruct (String.eqb a b); auto|].
  unfold not_agent at 1.
  destruct (String.eqb_spec (agent y) a), (String.eqb_spec a b), (String.eqb_spec (agent y) b);
    subst; simpl; rewrite ?IH; try congruence;
    try (rewrite String.eqb_refl; reflexivity);
    try (destruct (String.eqb_spec b b); congruence);
    try (destruct (String.eqb_spec (agent y) b); congruence).
Qed.

Lemma first_limit_app l1 l2 :
  first_limit (l1 ++ l2) = match first_limit l1 with Some q => Some q | None => first_limit l2 end.
Proof.
  induction l1 as [|y l1 IH]; simpl; auto.
  destruct (price y); simpl; auto.
Qed.

Lemma first_limit_in l q : first_limit l = Some q -> exists o, In o l /\ price o = Some q.
Proof.
  induction l as [|y l IH]; simpl; intros H; [discriminate|].
  destruct (price y) eqn:E; simpl in H.
  - injection H as ->; exists y; auto.
  - destruct (IH H) as [o [? ?]]; exists o; auto.
Qed.

Lemma first_limit_none_inv l : first_limit l = None -> forall o, In o l -> price o = None.
Proof.
  induction l as [|y l IH]; simpl; intros H o Ho; [tauto|].
  destruct (price y) eqn:E; simpl in H; [discriminate|].
  destruct Ho as [<-|Ho]; auto.
Qed.

Lemma key_le_fin a b t1 t2 : key_le (Fin a, t1) (Fin b, t2) -> a <= b.
Proof. unfold key_le, key_leb; simpl; zbool; try discriminate; lia. Qed.

(** In a sorted buying book the tail-first scan finds the highest limit price. *)
Lemma bid_is_max l :
  sorted_keys buy_book_key l ->
  forall q, first_limit (rev l) = Some q -> forall o p, In o l -> price o = Some p -> p <= q.
Proof.
  induction l as [|y l IH]; intros Hs q Hq o p Ho Hp; [destruct Ho|].
  unfold sorted_keys in Hs; simpl in Hs; apply StronglySorted_inv in Hs as [Hs Hf].
  simpl in Hq; rewrite first_limit_app in Hq.
  destruct (first_limit (rev l)) as [q'|] eqn:E.
  - injection Hq as <-.
    destruct Ho as [<-|Ho]; [|eapply IH; eauto].
    destruct (first_limit_in _ _ E) as [x [Hx Hpx]]. apply in_rev in Hx.
    rewrite List.Forall_forall in Hf.
    specialize (Hf (buy_book_key x) (in_map _ _ _ Hx)).
    unfold buy_book_key in Hf; rewrite Hp, Hpx in Hf; eapply key_le_fin; eauto.
  - destruct Ho as [<-|Ho].
    + simpl in Hq; rewrite Hp in Hq; simpl in Hq; injection Hq as ->; lia.
    + assert (price o = None) by (apply (first_limit_none_inv _ E), in_rev; rewrite rev_involutive; auto).
      congruence.
Qed.

(** In a sorted selling book the head-first scan finds the lowest limit price. *)
Lemma ask_is_min l :
  sorted_keys sell_book_key l ->
  forall q, first_limit l = Some q -> forall o p, In o l -> price o = Some p -> q <= p.
Proof.
  induction l as [|y l IH]; intros Hs q Hq o p Ho Hp; [destruct Ho|].
  unfold sorted_keys in Hs; simpl in Hs; apply StronglySorted_inv in Hs as [Hs Hf].
  simpl in Hq. destruct (price y) eqn:Ey; simpl in Hq.
  - injection Hq as <-.
    destruct Ho as [<-|Ho]; [rewrite Ey in Hp; injection Hp as ->; lia|].
    rewrite List.Forall_forall in Hf.
    specialize (Hf (sell_book_key o) (in_map _ _ _ Ho)).
    unfold sell_book_key in Hf; rewrite Ey, Hp in Hf; eapply key_le_fin; eauto.
  - destruct Ho as [<-|Ho]; [congruence|eapply IH; eauto].
Qed.

(** ** [market.open] and [market.close] *)

(** After [close(a)], [open(a)] is empty, and the open orders of every other
    agent are exactly as before, in the same order. *)
Theorem close_removes_only_agent a m :
  open a (close a m) = [] /\ (forall b, b <> a -> open b (close a m) = open b m).
Proof.
  unfold open, close, set_books; simpl. split.
  - rewrite !List.filter_app, !filter_agent_close, String.eqb_refl; reflexivity.
  - intros b Hb. rewrite !List.filter_app, !filter_agent_close.
    destruct (String.eqb_spec a b); [congruence|reflexivity].
Qed.

Lemma close_agent_free a m o : In o (buying (close a m) ++ selling (close a m)) ->
  String.eqb (agent o) a = false.
Proof.
  unfold close, set_books; simpl; intros Ho.
  apply in_app_or in Ho as [Ho|Ho]; apply filter_In in Ho as [_ Ho];
    unfold not_agent in Ho; apply negb_true_iff in Ho; exact Ho.
Qed.

(** ** [market.enter] *)

Lemma enter_replace_open o m :
  open (agent o) (enter o true m) = [o].
Proof.
  pose proof (close_agent_free (agent o) m) as Hfree.
  unfold open, enter.
  destruct (0 <=? amount o); simpl; rewrite List.filter_app.
  - rewrite filter_sort_by_single; [| |apply String.eqb_refl].
    + rewrite filter_none; [reflexivity|].
      intros y Hy; apply Hfree, in_or_app; right; exact Hy.
    + intros y Hy; apply Hfree, in_or_app; left; exact Hy.
  - rewrite filter_sort_by_single; [| |apply String.eqb_refl].
    + rewrite filter_none; [reflexivity|].
      intros y Hy; apply Hfree, in_or_app; left; exact Hy.
    + intros y Hy; apply Hfree, in_or_app; right; exact Hy.
Qed.

(** With [update=True], after [enter(order)] the only open order of the
    order's agent in this market is that order. *)
Theorem enter_replace_leaves_one o m :
  open (agent o) (enter o true m) = [o].
Proof. apply enter_replace_open. Qed.

(** In a reachable market, entering an order (with or without replacement)
    leaves the open orders of every other agent unchanged, in order. *)
Theorem enter_keeps_other_agents (ok : trade -> Prop) o u m b :
  reachable ok m -> b <> agent o -> open b (enter o u m) = open b m.
Proof.
  intros Hr Hb.
  set (m1 := if u then close (agent o) m else m).
  assert (Hopen : open b m1 = open b m)
    by (unfold m1; destruct u; [apply close_removes_only_agent; auto|reflexivity]).
  assert (Hs : books_sorted m1)
    by (unfold m1; destruct u; [apply close_sorted|]; eapply reachable_sorted; eauto).
  destruct Hs as [Hsb Hss].
  assert (Ho : String.eqb (agent o) b = false)
    by (destruct (String.eqb_spec (agent o) b); congruence).
  rewrite <- Hopen. unfold enter; fold m1. unfold open; simpl.
  destruct (0 <=? amount o); simpl; rewrite !List.filter_app, sort_by_snoc.
  - rewrite sort_by_sorted_id, filter_insort_out; auto.
  - rewrite sort_by_sorted_id with (l := selling m1), filter_insort_out; auto.
Qed.

Lemma enter_keeps_other_agents_witness :
  reachable (fun o => amount o <> 0) test_simple_book /\
  "agent A" <> agent (mk_trade "grain" (Some 405) 7 30 "agent G") /\
  open "agent A" (enter (mk_trade "grain" (Some 405) 7 30 "agent G") true test_simple_book)
    = [mk_trade "grain" (Some 400) 1 (-250) "agent A"].
Proof.
  split; [exact test_simple_book_reachable|]. split; [discriminate|].
  rewrite (enter_keeps_other_agents _ (mk_trade "grain" (Some 405) 7 30 "agent G") true
             test_simple_book "agent A" test_simple_book_reachable ltac:(discriminate)).
  vm_compute; reflexivity.
Defined.

(** ** [market.price] *)

(** In a reachable market, [price()] quotes as bid the highest limit price
    of the buying book and as ask the lowest limit price of the selling book
    (market orders are skipped), and [0] on a side with no limit order. *)
Theorem market_price_best (ok : trade -> Prop) m :
  reachable ok m ->
  (forall o p, In o (buying m) -> price o = Some p ->
     exists q, bid (market_price m) = Some q /\ p <= q /\
               exists o', In o' (buying m) /\ price o' = Some q) /\
  (forall o p, In o (selling m) -> price o = Some p ->
     exists q, ask (market_price m) = Some q /\ q <= p /\
               exists o', In o' (selling m) /\ price o' = Some q) /\
  ((forall o, In o (buying m) -> price o = None) -> bid (market_price m) = Some 0) /\
  ((forall o, In o (selling m) -> price o = None) -> ask (market_price m) = Some 0).
Proof.
  intros Hr; destruct (reachable_sorted _ _ Hr) as [Hb Hs].
  unfold market_price; simpl. repeat split.
  - intros o p Ho Hp.
    destruct (first_limit (rev (buying m))) as [q|] eqn:E.
    + exists q; split; [reflexivity|split; [eapply bid_is_max; eauto|]].
      destruct (first_limit_in _ _ E) as [x [Hx Hpx]]; exists x; split; auto.
      apply in_rev; exact Hx.
    + assert (price o = None) by (apply (first_limit_none_inv _ E), in_rev; rewrite rev_involutive; auto).
      congruence.
  - intros o p Ho Hp.
    destruct (first_limit (selling m)) as [q|] eqn:E.
    + exists q; split; [reflexivity|split; [eapply ask_is_min; eauto|]].
      apply first_limit_in; exact E.
    + assert (price o = None) by (apply (first_limit_none_inv _ E); auto).
      congruence.
  - intros H; rewrite first_limit_none; [reflexivity|].
    intros o Ho; apply H, in_rev; exact Ho.
  - intros H; rewrite first_limit_none; auto.
Qed.

Lemma market_price_best_witness :
  reachable (fun o => amount o <> 0) test_simple_book /\
  bid (market_price test_simple_book) = Some 410 /\ ask (market_price test_simple_book) = Some 400.
Proof.
  split; [exact test_simple_book_reachable|].
  destruct (market_price_best _ _ test_simple_book_reachable) as [Hb [Hs _]].
  destruct (Hb (mk_trade "grain" (Some 410) 2 500 "agent B") 410
              ltac:(vm_compute; right; left; reflexivity) eq_refl) as [q [Hq _]].
  destruct (Hs (mk_trade "grain" (Some 400) 2 (-200) "agent C") 400
              ltac:(vm_compute; left; reflexivity) eq_refl) as [q' [Hq' _]].
  split; [rewrite Hq|rewrite Hq']; vm_compute in Hq, Hq' |- *; congruence.
Defined.

(** ** What [execute] leaves behind *)

(** The loop stops on a pair of top orders only if both are limit orders
    and the sell price is above the buy price, or both are market orders and
    no order of either book has a limit price. *)
Lemma loop_exit_tops m now b s :
  loop_exits m now -> last_opt (buying m) = Some b -> hd_error (selling m) = Some s ->
  (price b = None /\ price s = None /\
     forall o, In o (buying m ++ selling m) -> price o = None) \/
  (exists bp sp, price b = Some bp /\ price s = Some sp /\ bp < sp).
Proof.
  unfold loop_exits, step; intros Hx Hb Hs.
  rewrite Hb in Hx. destruct (selling m) as [|s' srest] eqn:Hsl; [discriminate|].
  simpl in Hs; injection Hs as ->.
  destruct (crossed s b) eqn:Ec.
  - destruct (trade_price (buying m) (s :: srest) b s) eqn:Ep; [contradiction|].
    left. rewrite <- Hsl in Ep |- *. unfold trade_price in Ep.
    destruct (time b <? time s), (price s) eqn:Eps, (price b) eqn:Epb; simpl in Ep;
      try discriminate; repeat split; auto;
      intros o Ho; apply (first_limit_none_inv _ Ep);
      apply in_app_or in Ho as [Ho|Ho]; apply in_or_app; rewrite <- ?in_rev; auto.
  - right. unfold crossed in Ec.
    destruct (price s) as [sp|], (price b) as [bp|]; try discriminate.
    exists bp, sp; repeat split; auto. apply Z.leb_gt in Ec; lia.
Qed.

(** After [execute], when both books still hold orders, either both top
    orders are limit orders with the sell price above the buy price, or both
    are market orders and no order of either book carries a limit price. *)
Theorem execute_final_book m now b s :
  last_opt (buying (snd (execute m now))) = Some b ->
  hd_error (selling (snd (execute m now))) = Some s ->
  (price b = None /\ price s = None /\
     forall o, In o (buying (snd (execute m now)) ++ selling (snd (execute m now))) ->
       price o = None) \/
  (exists bp sp, price b = Some bp /\ price s = Some sp /\ bp < sp).
Proof.
  intros Hb Hs. eapply loop_exit_tops; eauto.
  apply run_exits; lia.
Qed.

Lemma execute_final_book_witness :
  last_opt (buying (snd (execute test_simple_book 6))) = Some (mk_trade "grain" (Some 399) 6 10 "agent F") /\
  hd_error (selling (snd (execute test_simple_book 6))) = Some (mk_trade "grain" (Some 401) 3 (-150) "agent D") /\
  exists bp sp, Some 399 = Some bp /\ Some 401 = Some sp /\ bp < sp.
Proof.
  split; [vm_compute; reflexivity|]. split; [vm_compute; reflexivity|].
  destruct (execute_final_book test_simple_book 6 (mk_trade "grain" (Some 399) 6 10 "agent F")
              (mk_trade "grain" (Some 401) 3 (-150) "agent D")
              ltac:(vm_compute; reflexivity) ltac:(vm_compute; reflexivity)) as [[H _]|H];
    [discriminate|exact H].
Defined.

Lemma loop_exits_now m now now' : loop_exits m now -> loop_exits m now'.
Proof.
  unfold loop_exits, step.
  destruct (last_opt (buying m)) as [b|]; [|auto].
  destruct (selling m) as [|s sr]; [auto|].
  destruct (crossed s b); [|auto].
  destruct (trade_price (buying m) (s :: sr) b s); auto.
Qed.

Lemma run_exit f m now : loop_exits m now -> run (S f) m now = ([], m).
Proof.
  unfold loop_exits; intros H; simpl.
  destruct (step m now); [reflexivity|reflexivity|contradiction].
Qed.

(** Calling [execute] again, at any time, yields nothing and changes
    nothing: the first call leaves no match behind. *)
Theorem execute_again_yields_nothing m now now' :
  execute (snd (execute m now)) now' = ([], snd (execute m now)).
Proof.
  unfold execute at 1. apply run_exit.
  apply (loop_exits_now _ now). apply run_exits; lia.
Qed.

(** No trade-through: when both top orders are limit orders and the lowest
    sell price is above the highest buy price, [execute] yields nothing and
    leaves the market unchanged. *)
Theorem no_trade_through m now b s bp sp :
  last_opt (buying m) = Some b -> hd_error (selling m) = Some s ->
  price b = Some bp -> price s = Some sp -> bp < sp ->
  execute m now = ([], m).
Proof.
  intros Hb Hs Hpb Hps Hlt. unfold execute; apply run_exit.
  unfold loop_exits, step. rewrite Hb.
  destruct (selling m) as [|s' srest]; [discriminate|].
  simpl in Hs; injection Hs as ->.
  unfold crossed; rewrite Hpb, Hps.
  destruct (Z.leb_spec sp bp); [lia|exact I].
Qed.

Lemma no_trade_through_witness :
  execute (snd (execute test_simple_book 6)) 7 = ([], snd (execute test_simple_book 6)).
Proof.
  apply (no_trade_through _ 7 (mk_trade "grain" (Some 399) 6 10 "agent F")
           (mk_trade "grain" (Some 401) 3 (-150) "agent D") 399 401);
    try (vm_compute; reflexivity); lia.
Defined.

(** ** Partial fills *)

(** One match removes the top order whose quantity is used up and leaves the
    other one, reduced by the traded amount, in its place: the buy order if
    it was the larger one, the sell order if it was; both are removed when
    the quantities are equal. *)
Theorem step_partial_fill m now b s tb ts m' :
  last_opt (buying m) = Some b -> hd_error (selling m) = Some s ->
  step m now = Match tb ts m' ->
  (amount b < - amount s ->
     buying m' = removelast (buying m) /\
     selling m' = set_amount s (amount s + amount b) :: tl (selling m)) /\
  (- amount s < amount b ->
     buying m' = removelast (buying m) ++ [set_amount b (amount b + amount s)] /\
     selling m' = tl (selling m)) /\
  (amount b = - amount s ->
     buying m' = removelast (buying m) /\ selling m' = tl (selling m)).
Proof.
  intros Hb Hs H.
  apply step_match_inv in H as (b' & s' & srest & p & amt & Hb' & Hsl & _ & _ & Ha & _ & _ & ->).
  rewrite Hb in Hb'; injection Hb' as <-.
  rewrite Hsl in Hs |- *; simpl in Hs; injection Hs as <-. simpl.
  subst amt.
  split; [|split]; intros Hlt.
  - rewrite Z.min_l by lia. rewrite Z.eqb_refl.
    destruct (Z.eqb_spec (amount b) (- amount s')); [lia|]. split; reflexivity.
  - rewrite Z.min_r by lia. rewrite Z.eqb_refl.
    destruct (Z.eqb_spec (- amount s') (amount b)); [lia|].
    replace (amount b - - amount s') with (amount b + amount s') by lia.
    split; reflexivity.
  - rewrite Z.min_l by lia. rewrite Z.eqb_refl.
    destruct (Z.eqb_spec (amount b) (- amount s')); [|lia]. split; reflexivity.
Qed.

Lemma step_partial_fill_witness :
  last_opt (buying test_simple_book) = Some (mk_trade "grain" (Some 410) 2 500 "agent B") /\
  hd_error (selling test_simple_book) = Some (mk_trade "grain" (Some 400) 2 (-200) "agent C") /\
  match step test_simple_book 6 with
  | Match _ _ m' => buying m' = removelast (buying test_simple_book) ++
                      [mk_trade "grain" (Some 410) 2 300 "agent B"]
  | _ => False
  end.
Proof.
  split; [reflexivity|]. split; [reflexivity|].
  destruct (step test_simple_book 6) as [| |tb ts m'] eqn:E; [discriminate|discriminate|].
  destruct (step_partial_fill test_simple_book 6 (mk_trade "grain" (Some 410) 2 500 "agent B")
              (mk_trade "grain" (Some 400) 2 (-200) "agent C") _ _ _ eq_refl eq_refl E)
    as [_ [H _]].
  destruct H as [H _]; [simpl; lia|]. exact H.
Defined.

(** ** Volume and counters of [execute] *)

Lemma sum_amounts_app l1 l2 : sum_amounts (l1 ++ l2) = sum_amounts l1 + sum_amounts l2.
Proof. induction l1 as [|y l IH]; simpl; [reflexivity|rewrite IH; lia]. Qed.

Lemma step_volume m now tb ts m' :
  step m now = Match tb ts m' ->
  sum_amounts (buying m) = sum_amounts (buying m') + amount tb /\
  sum_amounts (selling m) = sum_amounts (selling m') + amount ts.
Proof.
  intros H.
  apply step_match_inv in H as (b & s & srest & p & amt & Hb & Hsl & _ & _ & Ha & -> & -> & ->).
  rewrite (last_opt_spec _ _ Hb) at 1. rewrite Hsl. simpl.
  rewrite sum_amounts_app; simpl.
  split; zbool; rewrite ?sum_amounts_app; simpl; lia.
Qed.

Lemma steps_facts now m ps m'' :
  steps now m ps m'' ->
  sum_amounts (buying m) = sum_amounts (buying m'') + sum_amounts (map (fun p => p.1.2) ps) /\
  sum_amounts (selling m) = sum_amounts (selling m'') + sum_amounts (map (fun p => p.2) ps) /\
  transaction m'' = transaction m + Z.of_nat (length ps) /\
  (ps = [] -> m'' = m) /\
  (forall t, last_opt (flatten_pairs ps) = Some t -> price t = Some (lastprice m'')).
Proof.
  induction 1 as [m|m tb ts m' ps m'' E _ IH].
  - simpl; repeat split; try lia; auto. discriminate.
  - destruct IH as (IHb & IHs & IHt & IHe & IHl).
    destruct (step_volume _ _ _ _ _ E) as [Vb Vs].
    apply step_match_inv in E as (b & s & srest & p & amt & _ & _ & _ & _ & _ & Htb & Hts & Hm').
    simpl. split; [lia|]. split; [lia|]. split.
    { rewrite IHt, Hm'; simpl; lia. }
    split; [discriminate|].
    intros t Ht. destruct ps as [|[[m0 tb0] ts0] ps].
    + rewrite IHe in * by reflexivity. subst m'.
      unfold last_opt in Ht; simpl in Ht; injection Ht as <-. subst ts; reflexivity.
    + apply IHl. unfold last_opt in Ht |- *. simpl in Ht |- *.
      rewrite <- !app_assoc in Ht. simpl in Ht.
      destruct (rev (flatten_pairs ps)) as [|x r]; simpl in Ht |- *; exact Ht.
Qed.

(** What [execute] takes out of each book is exactly what it trades: the
    buying book loses the sum of the buyers' trade amounts and the selling
    book the sum of the sellers' (negative) trade amounts. *)
Theorem execute_volume m now :
  exists ps,
    fst (execute m now) = flatten_pairs ps /\
    sum_amounts (buying m) =
      sum_amounts (buying (snd (execute m now))) + sum_amounts (map (fun p => p.1.2) ps) /\
    sum_amounts (selling m) =
      sum_amounts (selling (snd (execute m now))) + sum_amounts (map (fun p => p.2) ps).
Proof.
  destruct (run_steps (S (size m)) m now) as [ps [Hs Hf]].
  exists ps; unfold execute; split; [exact Hf|].
  destruct (steps_facts _ _ _ _ Hs) as (Hb & Hsl & _). split; assumption.
Qed.

(** [execute] counts one transaction per pair of trades it yields, and
    [lastprice] becomes the price of the last trade (it is unchanged when
    nothing is traded). *)
Theorem execute_counters m now :
  2 * (transaction (snd (execute m now)) - transaction m) = Z.of_nat (length (fst (execute m now))) /\
  (fst (execute m now) = [] -> lastprice (snd (execute m now)) = lastprice m) /\
  (forall t, last_opt (fst (execute m now)) = Some t ->
     price t = Some (lastprice (snd (execute m now)))).
Proof.
  destruct (run_steps (S (size m)) m now) as [ps [Hs Hf]].
  destruct (steps_facts _ _ _ _ Hs) as (_ & _ & Ht & He & Hl).
  unfold execute. rewrite Hf. split; [|split].
  - rewrite Ht. assert (Hlen : length (flatten_pairs ps) = (2 * length ps)%nat).
    { clear. induction ps as [|p ps IH]; simpl; [reflexivity|rewrite IH; lia]. }
    rewrite Hlen; lia.
  - intros H0. destruct ps as [|p ps]; [rewrite He; reflexivity|discriminate].
  - exact Hl.
Qed.

Lemma set_amount_amount o : set_amount o (amount o) = o.
Proof. destruct o; reflexivity. Qed.

Lemma set_amount_twice o a a' : set_amount (set_amount o a) a' = set_amount o a'.
Proof. reflexivity. Qed.

Lemma step_residual m now tb ts m' :
  step m now = Match tb ts m' -> signs (fun x => 0 <= x) m -> residual_of m m'.
Proof.
  intros H [Hpos Hneg].
  apply step_match_inv in H as (b & s & srest & p & amt & Hb & Hsl & _ & _ & Ha & _ & _ & ->).
  pose proof (last_opt_spec _ _ Hb) as Hl.
  assert (Hbin : In b (buying m)) by (rewrite Hl; apply in_or_app; right; left; auto).
  assert (Hs0 : amount s < 0) by (apply Hneg; rewrite Hsl; left; auto).
  split; simpl.
  - intros o' Ho'.
    destruct (amt =? amount b).
    + exists o'; split; [apply in_removelast, Ho'|]. rewrite set_amount_amount; split; auto; lia.
    + apply in_app_or in Ho' as [Ho'|[<-|[]]].
      * exists o'; split; [apply in_removelast, Ho'|]. rewrite set_amount_amount; split; auto; lia.
      * exists b; split; [exact Hbin|]. simpl; split; [reflexivity|].
        destruct (Z.min_spec (amount b) (- amount s)); assert (0 <= amount b) by auto; lia.
  - intros o' Ho'. rewrite Hsl.
    destruct (amt =? - amount s).
    + exists o'; split; [right; exact Ho'|]. rewrite set_amount_amount; split; auto; lia.
    + destruct Ho' as [<-|Ho'].
      * exists s; split; [left; reflexivity|]. simpl; split; [reflexivity|].
        destruct (Z.min_spec (amount b) (- amount s)); assert (0 <= amount b) by auto; lia.
      * exists o'; split; [right; exact Ho'|]. rewrite set_amount_amount; split; auto; lia.
Qed.

Lemma residual_trans m1 m2 m3 : residual_of m1 m2 -> residual_of m2 m3 -> residual_of m1 m3.
Proof.
  intros [H1b H1s] [H2b H2s]; split.
  - intros o3 Ho3. destruct (H2b o3 Ho3) as (o2 & Ho2 & E2 & L2).
    destruct (H1b o2 Ho2) as (o1 & Ho1 & E1 & L1).
    exists o1; split; [exact Ho1|]. split; [|lia].
    rewrite E2, E1 at 1; reflexivity.
  - intros o3 Ho3. destruct (H2s o3 Ho3) as (o2 & Ho2 & E2 & L2).
    destruct (H1s o2 Ho2) as (o1 & Ho1 & E1 & L1).
    exists o1; split; [exact Ho1|]. split; [|lia].
    rewrite E2, E1 at 1; reflexivity.
Qed.

Lemma residual_refl m : residual_of m m.
Proof.
  split; intros o Ho; exists o; rewrite set_amount_amount; repeat split; auto; lia.
Qed.

(** Orders resting after [execute] are orders that rested before, with the
    same security, price, time and agent, and a quantity reduced toward zero
    (given the signs every reachable book has). *)
Theorem execute_no_new_orders (ok : trade -> Prop) m now :
  reachable ok m -> residual_of m (snd (execute m now)).
Proof.
  intros Hr.
  assert (Hsg : signs (fun x => 0 <= x) m)
    by (eapply reachable_signs; [| |exact Hr]; intros; lia).
  destruct (run_steps (S (size m)) m now) as [ps [Hs _]].
  unfold execute. clear Hr. revert Hsg. induction Hs as [m|m tb ts m' ps m'' E _ IH]; intros Hsg.
  - apply residual_refl.
  - eapply residual_trans; [eapply step_residual; eauto|].
    apply IH. eapply step_signs; eauto. intros; lia.
Qed.

Lemma execute_no_new_orders_witness :
  reachable (fun o => amount o <> 0) test_simple_book /\
  residual_of test_simple_book (snd (execute test_simple_book 6)).
Proof.
  split; [exact test_simple_book_reachable|].
  exact (execute_no_new_orders _ test_simple_book 6 test_simple_book_reachable).
Defined.

(** ** The exchange *)

Lemma step_books_sec k m now tb ts m' :
  step m now = Match tb ts m' -> books_sec k m ->
  books_sec k m' /\ security tb = k /\ security ts = k.
Proof.
  intros H [Hn Hs].
  apply step_match_inv in H as (b & s & srest & p & amt & Hb & Hsl & _ & _ & _ & -> & -> & ->).
  pose proof (last_opt_spec _ _ Hb) as Hl.
  assert (Hbk : security b = k) by (apply Hs, in_or_app; left; rewrite Hl; apply in_or_app; right; left; auto).
  assert (Hsk : security s = k) by (apply Hs, in_or_app; right; rewrite Hsl; left; auto).
  unfold books_sec; simpl; split; [split; [exact Hn|]|split; exact Hn].
  intros o Ho; apply in_app_or in Ho as [Ho|Ho].
  - destruct (amt =? amount b).
    + apply Hs, in_or_app; left; apply in_removelast, Ho.
    + apply in_app_or in Ho as [Ho|[<-|[]]]; [|exact Hbk].
      apply Hs, in_or_app; left; apply in_removelast, Ho.
  - destruct (amt =? - amount s).
    + apply Hs, in_or_app; right; rewrite Hsl; right; exact Ho.
    + destruct Ho as [<-|Ho]; [exact Hsk|].
      apply Hs, in_or_app; right; rewrite Hsl; right; exact Ho.
Qed.

Lemma steps_books_sec k now m ps m'' :
  steps now m ps m'' -> books_sec k m ->
  books_sec k m'' /\ forall t, In t (flatten_pairs ps) -> security t = k.
Proof.
  induction 1 as [m|m tb ts m' ps m'' E _ IH]; intros Hm.
  - split; [exact Hm|intros t []].
  - destruct (step_books_sec _ _ _ _ _ _ E Hm) as (Hm' & Htb & Hts).
    destruct (IH Hm') as [IH1 IH2]; split; [exact IH1|].
    simpl; intros t [<-|[<-|Ht]]; auto.
Qed.

Lemma execute_books_sec k m now :
  books_sec k m ->
  books_sec k (snd (execute m now)) /\ forall t, In t (fst (execute m now)) -> security t = k.
Proof.
  intros Hm; destruct (run_steps (S (size m)) m now) as [ps [Hs Hf]].
  unfold execute; rewrite Hf; exact (steps_books_sec _ _ _ _ _ Hs Hm).
Qed.

Lemma close_books_sec k a m : books_sec k m -> books_sec k (close a m).
Proof.
  intros [Hn Hs]; split; [exact Hn|].
  unfold close, set_books; simpl; intros o Ho.
  apply Hs; apply in_app_or in Ho as [Ho|Ho]; apply filter_In in Ho as [Ho _];
    apply in_or_app; auto.
Qed.

Lemma enter_books_sec k o u m : books_sec k m -> security o = k -> books_sec k (enter o u m).
Proof.
  intros Hm Ho.
  assert (Hm1 : books_sec k (if u then close (agent o) m else m))
    by (destruct u; [apply close_books_sec|]; exact Hm).
  destruct Hm1 as [Hn Hs].
  unfold enter; destruct (0 <=? amount o); split; try exact Hn;
    unfold set_books; simpl; intros x Hx; apply in_app_or in Hx as [Hx|Hx].
  - apply in_sort_by in Hx; apply in_app_or in Hx as [Hx|[<-|[]]]; [|exact Ho].
    apply Hs, in_or_app; left; exact Hx.
  - apply Hs, in_or_app; right; exact Hx.
  - apply Hs, in_or_app; left; exact Hx.
  - apply in_sort_by in Hx; apply in_app_or in Hx as [Hx|[<-|[]]]; [|exact Ho].
    apply Hs, in_or_app; right; exact Hx.
Qed.

Lemma on_market_ensure clock sec f ex :
  markets (on_market sec f (ensure_market clock sec ex)) =
  <[sec := f (default (new_market sec clock) (markets ex !! sec))]> (markets ex).
Proof.
  unfold on_market, ensure_market.
  destruct (markets ex !! sec) as [mk|] eqn:E; simpl.
  - rewrite E; reflexivity.
  - rewrite lookup_insert_eq; simpl. apply insert_insert_eq.
Qed.

Lemma ex_default_books_sec clock sec ex :
  (forall k mk, markets ex !! k = Some mk -> books_sec k mk) ->
  books_sec sec (default (new_market sec clock) (markets ex !! sec)).
Proof.
  intros H; destruct (markets ex !! sec) as [mk|] eqn:E; simpl; [eauto|].
  split; [reflexivity|intros o []].
Qed.

Lemma ex_insert_books_sec (M : gmap string market) sec mk :
  (forall k mk, M !! k = Some mk -> books_sec k mk) -> books_sec sec mk ->
  forall k mk', <[sec := mk]> M !! k = Some mk' -> books_sec k mk'.
Proof.
  intros H Hmk k mk' Hk; apply lookup_insert_Some in Hk as [[<- <-]|[_ Hk]]; eauto.
Qed.

Lemma ex_reachable_books ex :
  ex_reachable ex -> forall k mk, markets ex !! k = Some mk -> books_sec k mk.
Proof.
  induction 1 as [nm|clock sec a amt pr now u ex _ IH|clock sec a amt pr now u ex _ IH
                 |clock o u ex _ IH|now ex _ IH].
  - simpl; intros k mk Hk; rewrite lookup_empty in Hk; discriminate.
  - unfold ex_buy; rewrite on_market_ensure; apply ex_insert_books_sec; [exact IH|].
    pose proof (ex_default_books_sec clock sec ex IH) as Hd.
    unfold buy; apply enter_books_sec; [exact Hd|]. simpl; apply Hd.
  - unfold ex_sell; rewrite on_market_ensure; apply ex_insert_books_sec; [exact IH|].
    pose proof (ex_default_books_sec clock sec ex IH) as Hd.
    unfold buy; apply enter_books_sec; [exact Hd|]. simpl; apply Hd.
  - unfold ex_enter; rewrite on_market_ensure; apply ex_insert_books_sec; [exact IH|].
    apply enter_books_sec; [apply ex_default_books_sec, IH|reflexivity].
  - simpl; intros k mk Hk; apply lookup_fmap_Some in Hk as (mk0 & <- & Hk).
    apply execute_books_sec; eauto.
Qed.

(** Every market of an exchange sits under its own security name and holds
    only orders for that security, whatever sequence of [buy], [sell],
    [enter] and [execute] calls built the exchange. *)
Theorem exchange_markets_consistent ex k mk :
  ex_reachable ex -> markets ex !! k = Some mk ->
  name mk = k /\ forall o, In o (buying mk ++ selling mk) -> security o = k.
Proof. intros Hr Hk; exact (ex_reachable_books ex Hr k mk Hk). Qed.

Lemma w_exchange_reachable : ex_reachable w_exchange.
Proof. unfold w_exchange; repeat constructor. Qed.

Lemma exchange_markets_consistent_witness :
  ex_reachable w_exchange /\
  markets w_exchange !! "grain" =
    Some (enter (mk_trade "grain" (Some 1100) 1 90 "a") true
            (enter (mk_trade "grain" (Some 1000) 1 (-100) "b") true (new_market "grain" 0))) /\
  (name (enter (mk_trade "grain" (Some 1100) 1 90 "a") true
            (enter (mk_trade "grain" (Some 1000) 1 (-100) "b") true (new_market "grain" 0))) = "grain" /\
   forall o, In o (buying (enter (mk_trade "grain" (Some 1100) 1 90 "a") true
            (enter (mk_trade "grain" (Some 1000) 1 (-100) "b") true (new_market "grain" 0))) ++
                  selling (enter (mk_trade "grain" (Some 1100) 1 90 "a") true
            (enter (mk_trade "grain" (Some 1000) 1 (-100) "b") true (new_market "grain" 0)))) ->
             security o = "grain").
Proof.
  assert (Hk : markets w_exchange !! "grain" =
    Some (enter (mk_trade "grain" (Some 1100) 1 90 "a") true
            (enter (mk_trade "grain" (Some 1000) 1 (-100) "b") true (new_market "grain" 0))))
    by (vm_compute; reflexivity).
  split; [exact w_exchange_reachable|]. split; [exact Hk|].
  exact (exchange_markets_consistent w_exchange "grain" _ w_exchange_reachable Hk).
Defined.

Lemma ex_execute_in now ex t :
  In t (fst (ex_execute now ex)) <->
  exists k mk, markets ex !! k = Some mk /\ In t (fst (execute mk now)).
Proof.
  unfold ex_execute; simpl; rewrite in_flat_map; split.
  - intros ([k mk] & Hin & Ht); exists k, mk; split; [|exact Ht].
    apply elem_of_map_to_list, list_elem_of_In, Hin.
  - intros (k & mk & Hk & Ht); exists (k, mk); split; [|exact Ht].
    apply list_elem_of_In, elem_of_map_to_list, Hk.
Qed.

(** [exchange.execute] yields only trades of existing markets, each trade
    coming from the market of its own security. *)
Theorem exchange_execute_trade_from_own_market now ex t :
  ex_reachable ex -> In t (fst (ex_execute now ex)) ->
  exists mk, markets ex !! security t = Some mk /\ In t (fst (execute mk now)).
Proof.
  intros Hr Ht; apply ex_execute_in in Ht as (k & mk & Hk & Ht).
  pose proof (ex_reachable_books ex Hr k mk Hk) as Hb.
  replace (security t) with k by (symmetry; exact (proj2 (execute_books_sec k mk now Hb) t Ht)).
  exists mk; split; assumption.
Qed.

Lemma exchange_execute_trade_from_own_market_witness :
  exists t, In t (fst (ex_execute 3 w_exchange)) /\
    exists mk, markets w_exchange !! security t = Some mk /\ In t (fst (execute mk 3)).
Proof.
  exists (mk_trade "grain" (Some 1100) 3 90 "a").
  assert (Ht : In (mk_trade "grain" (Some 1100) 3 90 "a") (fst (ex_execute 3 w_exchange)))
    by (vm_compute; auto).
  split; [exact Ht|].
  exact (exchange_execute_trade_from_own_market 3 w_exchange _ w_exchange_reachable Ht).
Defined.

Lemma ex_open_in a ex x :
  In x (ex_open a ex) <-> exists k mk, markets ex !! k = Some mk /\ In x (open a mk).
Proof.
  unfold ex_open; rewrite in_flat_map; split.
  - intros ([k mk] & Hin & Hx); exists k, mk; split; [|exact Hx].
    apply elem_of_map_to_list, list_elem_of_In, Hin.
  - intros (k & mk & Hk & Hx); exists (k, mk); split; [|exact Hx].
    apply list_elem_of_In, elem_of_map_to_list, Hk.
Qed.

Lemma open_in a m x : In x (open a m) -> In x (buying m ++ selling m).
Proof. unfold open; intros H; apply filter_In in H as [H _]; exact H. Qed.

(** [exchange.enter(order)] with [update=True] replaces the agent's open
    orders only in the order's own market: afterwards the agent's open
    orders across the exchange are the new order plus its earlier orders for
    other securities. *)
Theorem exchange_enter_replaces_in_one_market clock o ex x :
  ex_reachable ex ->
  (In x (ex_open (agent o) (ex_enter clock o true ex)) <->
   x = o \/ (In x (ex_open (agent o) ex) /\ security x <> security o)).
Proof.
  intros Hr; pose proof (ex_reachable_books ex Hr) as Hb.
  rewrite !ex_open_in. unfold ex_enter; rewrite on_market_ensure.
  split.
  - intros (k & mk & Hk & Hx). apply lookup_insert_Some in Hk as [[<- <-]|[Hne Hk]].
    + left; rewrite enter_replace_open in Hx; destruct Hx as [<-|[]]; reflexivity.
    + right; split; [exists k, mk; auto|].
      rewrite (proj2 (Hb k mk Hk) x (open_in _ _ _ Hx)); congruence.
  - intros [->|[(k & mk & Hk & Hx) Hne]].
    + exists (security o), (enter o true (default (new_market (security o) clock) (markets ex !! security o))).
      rewrite lookup_insert_eq; split; [reflexivity|].
      rewrite enter_replace_open; left; reflexivity.
    + exists k, mk; split; [|exact Hx].
      rewrite lookup_insert_ne; [exact Hk|].
      rewrite <- (proj2 (Hb k mk Hk) x (open_in _ _ _ Hx)); congruence.
Qed.

Lemma exchange_enter_replaces_in_one_market_witness :
  ex_reachable w_exchange /\
  (In (mk_trade "wheat" (Some 500) 2 5 "a")
      (ex_open "a" (ex_enter 0 (mk_trade "grain" (Some 1050) 4 30 "a") true w_exchange)) <->
   mk_trade "wheat" (Some 500) 2 5 "a" = mk_trade "grain" (Some 1050) 4 30 "a" \/
   (In (mk_trade "wheat" (Some 500) 2 5 "a") (ex_open "a" w_exchange) /\
    security (mk_trade "wheat" (Some 500) 2 5 "a") <> security (mk_trade "grain" (Some 1050) 4 30 "a"))).
Proof.
  split; [exact w_exchange_reachable|].
  exact (exchange_enter_replaces_in_one_market 0 (mk_trade "grain" (Some 1050) 4 30 "a")
           w_exchange _ w_exchange_reachable).
Defined.

(** ** The caller: recording the trades with their agents *)







(** ** Repeated [exchange.execute] and the size of the books *)

(** After [exchange.execute], a second call, at any time, yields no trade
    in any market. *)
Theorem exchange_execute_again_yields_nothing now now' ex :
  fst (ex_execute now' (snd (ex_execute now ex))) = [].
Proof.
  destruct (fst (ex_execute now' (snd (ex_execute now ex)))) as [|t l] eqn:E; [reflexivity|].
  exfalso. assert (Ht : In t (fst (ex_execute now' (snd (ex_execute now ex))))) by (rewrite E; left; auto).
  apply ex_execute_in in Ht as (k & mk' & Hk & Ht).
  simpl in Hk; apply lookup_fmap_Some in Hk as (mk & <- & _).
  assert (Hn : execute (snd (execute mk now)) now' = ([], snd (execute mk now))).
  { unfold execute at 1. apply run_exit.
    apply (loop_exits_now _ now). apply run_exits; lia. }
  rewrite Hn in Ht; destruct Ht.
Qed.




